(** * MaiMaiL web-ui API client: retry loop, session handling, envelopes

    A shallow embedding of [data/web-ui/src/lib/api/client.ts] (class
    [ApiClient]) and of the [ApiResponse] envelope of
    [data/web-ui/src/lib/types/index.ts].

    The client is asynchronous, but one call of [request] is a sequential
    chain of awaits; it is embedded as a state-passing computation over

    - the mutable fields of the client object ([sessionId]),
    - the browser's [localStorage] (absent when [window] is undefined),
    - a log of the [fetch] calls made and of the [sleep] delays awaited.

    The network is a parameter: [net k] is what the k-th [fetch] call
    observes (a response, or a rejection when no response is received). *)

From stdpp Require Import gmap strings list.
From Stdlib Require Import ZArith Ascii String Lia.

Open Scope string_scope.
Open Scope list_scope.
Open Scope Z_scope.

(** ** JavaScript values *)

(** Payloads ([body?: any], [data?: T]).  Numbers are restricted to
    integers; only truthiness and identity of values are observed by the
    client. *)
#[warnings="-register-all"] Inductive jsval : Type :=
  | JUndefined
  | JNull
  | JBool (b : bool)
  | JNumber (n : Z)
  | JString (s : string)
  | JArray (items : list jsval)
  | JObject (fields : list (string * jsval)).

(** ToBoolean.  Arrays and objects are always truthy. *)
Definition truthy (v : jsval) : bool :=
  match v with
  | JUndefined | JNull => false
  | JBool b => b
  | JNumber n => negb (n =? 0)
  | JString "" => false
  | JString _ => true
  | JArray _ | JObject _ => true
  end.

(** [a || b] *)
Definition js_or (a b : jsval) : jsval := if truthy a then a else b.

(** Truthiness of a [string]. *)
Definition nonempty (s : string) : bool :=
  match s with "" => false | _ => true end.

(** Defining property [k] of an object literal after a spread of
    [fields]: an existing property keeps its place and takes the new value,
    a new one is added last. *)
Fixpoint set_field (k : string) (v : jsval) (fields : list (string * jsval))
    : list (string * jsval) :=
  match fields with
  | [] => [(k, v)]
  | (k', v') :: rest =>
      if String.eqb k' k then (k, v) :: rest
      else (k', v') :: set_field k v rest
  end.

(** Thrown values.  [new Error(m)] has name [Error]; a rejected [fetch] or
    [response.json()] carries whatever error the platform produced. *)
Record js_error : Type := { name : string; message : string }.

Definition Error (m : string) : js_error := {| name := "Error"; message := m |}.

(** ** Envelope ([ApiResponse<T>]) *)

Inductive response_type : Type := success | danger | warning | info.

Inductive message_field : Type :=
  | Msg (s : string)
  | Msgs (l : list string).

Record ApiResponse : Type := {
  type : response_type;
  msg : message_field;
  log : option (string * string);
  data : option jsval
}.

(** Reading the optional property [response.data]. *)
Definition data_of (r : ApiResponse) : jsval :=
  match data r with Some d => d | None => JUndefined end.

Definition is_danger (r : ApiResponse) : bool :=
  match type r with danger => true | _ => false end.

(** [Array.isArray(data.msg) ? data.msg.join(', ') : data.msg] *)
Definition errorMsg (r : ApiResponse) : string :=
  match msg r with
  | Msgs l => String.concat ", " l
  | Msg s => s
  end.

(** ** Transport *)

Inductive http_method : Type := GET | POST | PUT | DELETE.

Record RequestInit : Type := {
  method : http_method;
  headers : gmap string string;
  credentials : string;
  body : option string
}.

(** What [response.json()] settles to: the decoded envelope, or a rejection
    when the body is not such JSON. *)
Inductive json_result : Type :=
  | JsonValue (d : ApiResponse)
  | JsonReject (e : js_error).

Record Response : Type := { status : Z; json : json_result }.

(** [response.ok]: the status is in the range 200-299. *)
Definition ok (r : Response) : bool :=
  (200 <=? status r) && (status r <=? 299).

Inductive fetch_outcome : Type :=
  | Responded (r : Response)
  | Rejected (e : js_error).

(** ** encodeURIComponent

    The ECMAScript built-in, on the UTF-8 bytes of the string: the
    unreserved marks and alphanumerics are kept, every other byte becomes
    [%XX] in upper-case hexadecimal.  (The built-in throws on a string
    with a lone surrogate; such a string has no UTF-8 form and is not a
    [string] here.) *)

Definition is_alnum (c : ascii) : bool :=
  let n := Z.of_N (N_of_ascii c) in
  ((48 <=? n) && (n <=? 57)) || ((65 <=? n) && (n <=? 90)) ||
  ((97 <=? n) && (n <=? 122)).

Definition is_mark (c : ascii) : bool :=
  existsb (Ascii.eqb c) (list_ascii_of_string "-_.!~*'()").

Definition unreserved (c : ascii) : bool := is_alnum c || is_mark c.

Definition hex_digit (n : N) : ascii :=
  if (n <? 10)%N then ascii_of_N (48 + n) else ascii_of_N (55 + n).

Definition percent_encode (c : ascii) : string :=
  let n := N_of_ascii c in
  String "%" (String (hex_digit (n / 16)) (String (hex_digit (n mod 16)) "")).

(** A character that cannot end or split a query parameter. *)
Definition url_safe (c : ascii) : bool := unreserved c || Ascii.eqb c "%".

Fixpoint encodeURIComponent (s : string) : string :=
  match s with
  | "" => ""
  | String c rest =>
      (if unreserved c then String c "" else percent_encode c)
        +:+ encodeURIComponent rest
  end.

(** ** Client object and world *)

Record ApiClient : Type := {
  baseUrl : string;
  apiKey : string;
  sessionId : option string
}.

Record state : Type := {
  this : ApiClient;
  localStorage : option (gmap string string);
  fetch_log : list (string * RequestInit);
  sleep_log : list Z
}.

Definition with_fetch (st : state) (call : string * RequestInit) : state :=
  {| this := this st;
     localStorage := localStorage st;
     fetch_log := fetch_log st ++ [call];
     sleep_log := sleep_log st |}.

Definition with_sleep (st : state) (ms : Z) : state :=
  {| this := this st;
     localStorage := localStorage st;
     fetch_log := fetch_log st;
     sleep_log := sleep_log st ++ [ms] |}.

(** The effect of [setSession] on the client field and on the persisted
    entry; nothing is persisted when [window] is undefined. *)
Definition with_session (st : state) (sessionId : option string) : state :=
  {| this := {| baseUrl := baseUrl (this st);
                apiKey := apiKey (this st);
                sessionId := sessionId |};
     localStorage :=
       match localStorage st with
       | Some items =>
           Some (match sessionId with
                 | Some s =>
                     if nonempty s then <["session_id" := s]> items
                     else delete "session_id" items
                 | None => delete "session_id" items
                 end)
       | None => None
       end;
     fetch_log := fetch_log st;
     sleep_log := sleep_log st |}.

(** The constructor: the session is restored from [localStorage] when a
    [window] exists. *)
Definition new_ApiClient (baseUrl apiKey : string)
    (storage : option (gmap string string)) : ApiClient :=
  {| baseUrl := baseUrl;
     apiKey := apiKey;
     sessionId := match storage with
                  | Some items => items !! "session_id"
                  | None => None
                  end |}.

(** ** Completions

    A statement ends normally, by [continue], by [return] or by [throw].
    [L] is the type of loop signals: [unit] inside a loop body, [Empty_set]
    where no loop encloses the statement. *)
Inductive completion (L R A : Type) : Type :=
  | Normal (a : A)
  | Continue (l : L)
  | Return (r : R)
  | Throw (e : js_error).

Arguments Normal {L R A} a.
Arguments Continue {L R A} l.
Arguments Return {L R A} r.
Arguments Throw {L R A} e.

Definition M (L R A : Type) : Type := state -> completion L R A * state.

Definition ret {L R A} (a : A) : M L R A := fun st => (Normal a, st).

Definition bind {L R A B} (m : M L R A) (k : A -> M L R B) : M L R B :=
  fun st =>
    match m st with
    | (Normal a, st') => k a st'
    | (Continue l, st') => (Continue l, st')
    | (Return r, st') => (Return r, st')
    | (Throw e, st') => (Throw e, st')
    end.

Declare Scope js_scope.
Delimit Scope js_scope with js.
Bind Scope js_scope with M.

Notation "x <- m ;; k" := (bind m (fun x => k))
  (at level 100, m at next level, k at level 200, right associativity)
  : js_scope.
Notation "m ;; k" := (bind m (fun _ => k))
  (at level 100, k at level 200, right associativity) : js_scope.

Open Scope js_scope.

Definition throw {L R A} (e : js_error) : M L R A := fun st => (Throw e, st).
Definition return_ {L R A} (r : R) : M L R A := fun st => (Return r, st).
Definition continue {R A} : M unit R A := fun st => (Continue tt, st).

(** [if (c) { s }] *)
Definition when {L R} (c : bool) (s : M L R unit) : M L R unit :=
  if c then s else ret tt.

(** [try { s } catch (error) { handler }] *)
Definition try_catch {L R A} (s : M L R A) (handler : js_error -> M L R A)
    : M L R A :=
  fun st =>
    match s st with
    | (Throw e, st') => handler e st'
    | other => other
    end.

(** Settled promises, and the passage between an async function's body
    and its promise. *)
Inductive promise (A : Type) : Type :=
  | Resolve (a : A)
  | Reject (e : js_error).

Arguments Resolve {A} a.
Arguments Reject {A} e.

Definition async {R} (body : M Empty_set R Empty_set)
    : state -> promise R * state :=
  fun st =>
    match body st with
    | (Normal a, _) => match a with end
    | (Continue l, _) => match l with end
    | (Return r, st') => (Resolve r, st')
    | (Throw e, st') => (Reject e, st')
    end.

Definition await {L R A} (p : state -> promise A * state) : M L R A :=
  fun st =>
    match p st with
    | (Resolve a, st') => (Normal a, st')
    | (Reject e, st') => (Throw e, st')
    end.

(** ** Vocabulary of the properties *)

(** A transient failure: no response was received, or the status is in the
    server-error range tested by [request]. *)
Definition retryable (o : fetch_outcome) : bool :=
  match o with
  | Rejected _ => true
  | Responded r => 500 <=? status r
  end.

(** The session is rejected: status 401. *)
Definition unauthorized (o : fetch_outcome) : bool :=
  match o with
  | Responded r => status r =? 401
  | Rejected _ => false
  end.

(** A completion after which a loop goes on to its next iteration. *)
Definition goes_on {L R A} (c : completion L R A) : bool :=
  match c with
  | Normal _ | Continue _ => true
  | Return _ | Throw _ => false
  end.

(** The error constructed after the loop of [request]. *)
Definition RetriesExhausted : js_error := Error "Maximum retries exceeded".

(** [needle] occurs in [s]. *)
Fixpoint contains (needle s : string) : bool :=
  prefix needle s ||
  match s with
  | "" => false
  | String _ rest => contains needle rest
  end.

(** Some header carries the session token. *)
Definition carries_token (h : gmap string string) (token : string) : bool :=
  existsb (fun kv => contains token kv.2) (map_to_list h).

(** Transport calls made, and delays slept, between two states. *)
Definition attempts_made (st st' : state) : nat :=
  (List.length (fetch_log st') - List.length (fetch_log st))%nat.

Definition calls_made (st st' : state) : list (string * RequestInit) :=
  drop (List.length (fetch_log st)) (fetch_log st').

Definition delays_slept (st st' : state) : list Z :=
  drop (List.length (sleep_log st)) (sleep_log st').

(** The delay slept just before the attempt of index [k], for [k >= 1]. *)
Definition delay_before (st st' : state) (k : nat) : option Z :=
  delays_slept st st' !! (k - 1)%nat.

(** The session store holds no token. *)
Definition session_empty (st : state) : Prop :=
  sessionId (this st) = None /\
  match localStorage st with
  | Some items => items !! "session_id" = None
  | None => True
  end.

(** ** Scenarios

    Concrete clients, envelopes and networks on which the client is run. *)

Definition stored_session : gmap string string :=
  {[ "session_id" := "abc123" ]}.

(** A browser session in which the constructor found a stored token. *)
Definition logged_in : state :=
  {| this := new_ApiClient "/json_api.php" "" (Some stored_session);
     localStorage := Some stored_session;
     fetch_log := [];
     sleep_log := [] |}.

Definition env_ok : ApiResponse :=
  {| type := success;
     msg := Msg "ok";
     log := None;
     data := Some (JObject [("a", JNumber 1)]) |}.

Definition env_taken : ApiResponse :=
  {| type := danger; msg := Msg "username taken"; log := None; data := None |}.

Definition env_invalid : ApiResponse :=
  {| type := danger;
     msg := Msgs ["name missing"; "quota too large"];
     log := None;
     data := None |}.

Definition answer (status : Z) (envelope : ApiResponse) : fetch_outcome :=
  Responded {| status := status; json := JsonValue envelope |}.

(** What [fetch] rejects with when the backend cannot be reached. *)
Definition fetch_failed : js_error :=
  {| name := "TypeError"; message := "Failed to fetch" |}.

(** A backend that gives the same outcome to every call, and one whose
    first outcome differs from the later ones. *)
Definition always (o : fetch_outcome) : nat -> fetch_outcome := fun _ => o.

Definition first_then (first later : fetch_outcome) : nat -> fetch_outcome :=
  fun k => match k with O => first | S _ => later end.

(** A serializer for the scenarios, none of which sends a payload. *)
Definition no_payload (v : jsval) : string := "".

(** ** The client *)

Section Client.

(** [net k]: what the k-th call of [fetch] observes. *)
Variable net : nat -> fetch_outcome.

(** The built-in [JSON.stringify], taken as a total function; its output
    is never inspected. *)
Variable JSON_stringify : jsval -> string.

(** *** Primitive effects *)

(** [await fetch(url, options)] *)
Definition fetch {L R} (url : string) (options : RequestInit)
    : M L R Response :=
  fun st =>
    match net (List.length (fetch_log st)) with
    | Responded r => (Normal r, with_fetch st (url, options))
    | Rejected e => (Throw e, with_fetch st (url, options))
    end.

(** [await response.json()] *)
Definition json_of {L R} (response : Response) : M L R ApiResponse :=
  match json response with
  | JsonValue d => ret d
  | JsonReject e => throw e
  end.

(** [await this.sleep(ms)] *)
Definition sleep {L R} (ms : Z) : M L R unit :=
  fun st => (Normal tt, with_sleep st ms).

(** [this.setSession(sessionId)] *)
Definition setSession {L R} (sessionId : option string) : M L R unit :=
  fun st => (Normal tt, with_session st sessionId).

(** [this.buildUrl(query)] *)
Definition buildUrl (c : ApiClient) (query : string) : string :=
  baseUrl c +:+ "?query=" +:+ encodeURIComponent query.

(** *** request *)

(** The [headers] object built at the top of [request]. *)
Definition request_headers (c : ApiClient) : gmap string string :=
  let headers := {[ "Content-Type" := "application/json" ]} in
  if nonempty (apiKey c) then <["X-API-Key" := apiKey c]> headers
  else headers.

(** [method === 'POST' || method === 'PUT'] *)
Definition sends_body (method : http_method) : bool :=
  match method with POST | PUT => true | GET | DELETE => false end.

(** The [options] object built at the top of [request]. *)
Definition request_options (c : ApiClient) (method : http_method)
    (body : jsval) : RequestInit :=
  {| method := method;
     headers := request_headers c;
     credentials := "include";
     body := if truthy body && sends_body method
             then Some (JSON_stringify body)
             else None |}.

(** [Math.pow(2, attempt) * 1000].  The source computes in doubles; the
    product is [125 * 2^(attempt + 3)], which a double holds exactly up
    to [attempt = 1014] (see [backoff_fits_double]), and the embedding
    computes it in the integers. *)
Definition backoff (attempt : nat) : Z := 2 ^ Z.of_nat attempt * 1000.

(** The body of the [for] loop: one [try]/[catch]. *)
Definition attempt_body (url : string) (options : RequestInit)
    (retries attempt : nat) : M unit ApiResponse unit :=
  try_catch
    (response <- fetch url options ;;
     when (negb (ok response))
       (when (status response =? 401)
          (setSession None ;;
           throw (Error "Unauthorized - please login again")) ;;
        when (status response =? 403)
          (throw (Error "Forbidden - insufficient permissions")) ;;
        when ((500 <=? status response) && (attempt <? retries)%nat)
          (sleep (backoff attempt) ;;
           continue)) ;;
     data <- json_of response ;;
     when (is_danger data)
       (throw (Error (errorMsg data))) ;;
     return_ data)
    (fun error =>
       when (attempt =? retries)%nat
         (throw error) ;;
       sleep (backoff attempt)).

(** [for (let attempt = 0; attempt <= retries; attempt++) { ... }],
    entered at [attempt] with [remaining] iterations left; the loop is
    started with [remaining = retries + 1], so that [remaining = 0]
    exactly when the test [attempt <= retries] fails. *)
Fixpoint for_attempts {L} (url : string) (options : RequestInit)
    (retries remaining attempt : nat) : M L ApiResponse unit :=
  match remaining with
  | O => ret tt
  | S remaining' =>
      fun st =>
        match attempt_body url options retries attempt st with
        | (Normal _, st') | (Continue _, st') =>
            for_attempts url options retries remaining' (S attempt) st'
        | (Return r, st') => (Return r, st')
        | (Throw e, st') => (Throw e, st')
        end
  end.

(** [private async request<T>(method, query, body?, retries = 3)].
    An omitted [body] is [JUndefined]; [retries] is a count, a natural
    number. *)
Definition request (method : http_method) (query : string) (body : jsval)
    (retries : nat) : state -> promise ApiResponse * state :=
  fun st =>
    let url := buildUrl (this st) query in
    let options := request_options (this st) method body in
    async
      (for_attempts url options retries (S retries) 0 ;;
       throw (Error "Maximum retries exceeded"))
      st.

Definition default_retries : nat := 3.

(** *** Operations built on [request] *)

Definition getAuthStatus : state -> promise jsval * state :=
  async
    (try_catch
       (response <-
          await (request GET "get/user/auth" JUndefined default_retries) ;;
        return_ (js_or (data_of response) JNull))
       (fun _ => return_ JNull)).

Definition getMailboxes : state -> promise jsval * state :=
  async
    (response <-
       await (request GET "get/mailbox/all" JUndefined default_retries) ;;
     return_ (js_or (data_of response) (JArray []))).

Definition getMailbox (mailbox : string) : state -> promise jsval * state :=
  async
    (response <-
       await (request GET ("get/mailbox/mailbox_details/" +:+ mailbox)
                JUndefined default_retries) ;;
     return_ (data_of response)).

Definition createMailbox (data : jsval)
    : state -> promise ApiResponse * state :=
  async
    (response <- await (request POST "add/mailbox" data default_retries) ;;
     return_ response).

(** [{ ...data, username: mailbox }] on the fields of [data]. *)
Definition updateMailbox (mailbox : string) (data : list (string * jsval))
    : state -> promise ApiResponse * state :=
  async
    (response <-
       await (request PUT "edit/mailbox/mailbox"
                (JObject (set_field "username" (JString mailbox) data))
                default_retries) ;;
     return_ response).

Definition deleteMailbox (mailbox : string)
    : state -> promise ApiResponse * state :=
  async
    (response <-
       await (request DELETE ("delete/mailbox/" +:+ mailbox)
                JUndefined default_retries) ;;
     return_ response).

Definition getAnalysis (emailId mailbox : string)
    : state -> promise jsval * state :=
  async
    (try_catch
       (response <-
          await (request GET
                   ("get/llm/analysis?email_id=" +:+ emailId +:+
                    "&mailbox=" +:+ mailbox)
                   JUndefined default_retries) ;;
        return_ (js_or (data_of response) JNull))
       (fun _ => return_ JNull)).

(** *** Closed forms used by the proofs *)

(** The [catch] clause, entered with [error] in state [st]. *)
Definition caught (retries attempt : nat) (error : js_error) (st : state)
    : completion unit ApiResponse unit * state :=
  if (attempt =? retries)%nat then (Throw error, st)
  else (Normal tt, with_sleep st (backoff attempt)).

(** The state after [k] consecutive attempts that were each followed by
    their backoff delay, the first of them of index [attempt]. *)
Definition after_retries (st : state) (call : string * RequestInit)
    (attempt k : nat) : state :=
  {| this := this st;
     localStorage := localStorage st;
     fetch_log := fetch_log st ++ repeat call k;
     sleep_log := sleep_log st ++ map backoff (seq attempt k) |}.

(** *** One iteration of the loop *)

Ltac run_body :=
  unfold attempt_body, try_catch, bind, fetch, json_of, when, caught,
    setSession, sleep, throw, return_, continue, ret.

(** The fetch is rejected: the [catch] clause runs. *)
Lemma attempt_rejected url options retries attempt st e :
  net (List.length (fetch_log st)) = Rejected e ->
  attempt_body url options retries attempt st =
    caught retries attempt e (with_fetch st (url, options)).
Proof.
  intros Hnet. run_body. rewrite Hnet.
  destruct (attempt =? retries)%nat; reflexivity.
Qed.

(** Status 401: the session is cleared, and the error thrown inside the
    [try] block reaches the [catch] clause. *)
Lemma attempt_401 url options retries attempt st r :
  net (List.length (fetch_log st)) = Responded r ->
  status r = 401 ->
  attempt_body url options retries attempt st =
    caught retries attempt (Error "Unauthorized - please login again")
      (with_session (with_fetch st (url, options)) None).
Proof.
  intros Hnet H401. run_body. rewrite Hnet. unfold ok. rewrite H401.
  simpl. destruct (attempt =? retries)%nat; reflexivity.
Qed.

Lemma attempt_403 url options retries attempt st r :
  net (List.length (fetch_log st)) = Responded r ->
  status r = 403 ->
  attempt_body url options retries attempt st =
    caught retries attempt (Error "Forbidden - insufficient permissions")
      (with_fetch st (url, options)).
Proof.
  intros Hnet H403. run_body. rewrite Hnet. unfold ok. rewrite H403.
  simpl. destruct (attempt =? retries)%nat; reflexivity.
Qed.

(** A server error with attempts left: sleep, then [continue]. *)
Lemma attempt_5xx_retry url options retries attempt st r :
  net (List.length (fetch_log st)) = Responded r ->
  500 <= status r ->
  (attempt < retries)%nat ->
  attempt_body url options retries attempt st =
    (Continue tt,
     with_sleep (with_fetch st (url, options)) (backoff attempt)).
Proof.
  intros Hnet H5 Hlt. run_body. rewrite Hnet. unfold ok.
  assert ((200 <=? status r) = true) as -> by lia.
  assert ((status r <=? 299) = false) as -> by lia.
  assert ((status r =? 401) = false) as -> by lia.
  assert ((status r =? 403) = false) as -> by lia.
  assert ((500 <=? status r) = true) as -> by lia.
  assert ((attempt <? retries)%nat = true) as -> by (apply Nat.ltb_lt; lia).
  reflexivity.
Qed.

(** Every other response has its body parsed; what the parse yields
    decides the iteration. *)
Lemma attempt_parsed url options retries attempt st r :
  net (List.length (fetch_log st)) = Responded r ->
  status r <> 401 ->
  status r <> 403 ->
  status r < 500 \/ (retries <= attempt)%nat ->
  attempt_body url options retries attempt st =
    match json r with
    | JsonReject e =>
        caught retries attempt e (with_fetch st (url, options))
    | JsonValue d =>
        if is_danger d
        then caught retries attempt (Error (errorMsg d))
               (with_fetch st (url, options))
        else (Return d, with_fetch st (url, options))
    end.
Proof.
  intros Hnet N401 N403 Hcase. run_body. rewrite Hnet.
  assert ((status r =? 401) = false) as E401 by lia.
  assert ((status r =? 403) = false) as E403 by lia.
  assert ((500 <=? status r) && (attempt <? retries)%nat = false) as E5.
  { destruct Hcase as [Hs | Ha].
    - assert ((500 <=? status r) = false) as -> by lia. reflexivity.
    - assert ((attempt <? retries)%nat = false) as ->
        by (apply Nat.ltb_ge; lia).
      apply andb_false_r. }
  destruct (negb (ok r)); rewrite ?E401, ?E403, ?E5;
    destruct (json r) as [d | e]; try destruct (is_danger d);
    destruct (attempt =? retries)%nat; reflexivity.
Qed.

Lemma caught_effect retries attempt e st :
  let '(c, st') := caught retries attempt e st in
  this st' = this st /\ localStorage st' = localStorage st /\
  fetch_log st' = fetch_log st /\
  sleep_log st' =
    sleep_log st ++ (if goes_on c then [backoff attempt] else []) /\
  (goes_on c = true -> attempt <> retries) /\
  (c = Throw e \/ goes_on c = true).
Proof.
  unfold caught. destruct (attempt =? retries)%nat eqn:E; simpl.
  - rewrite app_nil_r. repeat split; try discriminate. now left.
  - apply Nat.eqb_neq in E. repeat split; auto.
Qed.

(** What every iteration does, whatever the network answers: exactly one
    [fetch] with the options built before the loop, one backoff delay if
    and only if the loop goes on, and no change to the session unless the
    status is 401. *)
Lemma attempt_effect url options retries attempt st :
  let '(c, st') := attempt_body url options retries attempt st in
  fetch_log st' = fetch_log st ++ [(url, options)] /\
  sleep_log st' =
    sleep_log st ++ (if goes_on c then [backoff attempt] else []) /\
  (goes_on c = true -> attempt <> retries) /\
  match net (List.length (fetch_log st)) with
  | Responded r =>
      if status r =? 401 then session_empty st'
      else this st' = this st /\ localStorage st' = localStorage st
  | Rejected _ => this st' = this st /\ localStorage st' = localStorage st
  end.
Proof.
  destruct (net (List.length (fetch_log st))) as [r | e] eqn:Hnet.
  - destruct (Z.eq_dec (status r) 401) as [H401 | N401].
    { rewrite (attempt_401 _ _ _ _ _ _ Hnet H401).
      pose proof (caught_effect retries attempt
                    (Error "Unauthorized - please login again")
                    (with_session (with_fetch st (url, options)) None))
        as Hc.
      destruct (caught _ _ _ _) as [c st'].
      destruct Hc as (Hthis & Hls & Hf & Hs & Hgo & _).
      rewrite Hf, Hs. assert ((status r =? 401) = true) as -> by lia.
      repeat split; auto.
      - rewrite Hthis. reflexivity.
      - rewrite Hls. simpl. destruct (localStorage st); [|exact I].
        apply lookup_delete_eq. }
    assert ((status r =? 401) = false) as -> by lia.
    destruct (Z.eq_dec (status r) 403) as [H403 | N403].
    { rewrite (attempt_403 _ _ _ _ _ _ Hnet H403).
      pose proof (caught_effect retries attempt
                    (Error "Forbidden - insufficient permissions")
                    (with_fetch st (url, options))) as Hc.
      destruct (caught _ _ _ _) as [c st'].
      destruct Hc as (Hthis & Hls & Hf & Hs & Hgo & _).
      rewrite Hf, Hs, Hthis, Hls. repeat split; auto. }
    destruct (Z_lt_le_dec (status r) 500) as [Hlow | H5].
    + rewrite (attempt_parsed _ _ _ _ _ _ Hnet N401 N403 (or_introl Hlow)).
      destruct (json r) as [d | e]; [destruct (is_danger d)|];
        try (simpl; rewrite app_nil_r; repeat split; auto; discriminate);
        match goal with
        | |- context [caught ?a ?b ?c ?d] =>
            pose proof (caught_effect a b c d) as Hc;
            destruct (caught a b c d) as [c' st'];
            destruct Hc as (Hthis & Hls & Hf & Hs & Hgo & _);
            rewrite Hf, Hs, Hthis, Hls; repeat split; auto
        end.
    + destruct (le_lt_dec retries attempt) as [Hlast | Hmore].
      * rewrite (attempt_parsed _ _ _ _ _ _ Hnet N401 N403
                   (or_intror Hlast)).
        destruct (json r) as [d | e]; [destruct (is_danger d)|];
          try (simpl; rewrite app_nil_r; repeat split; auto; discriminate);
          match goal with
          | |- context [caught ?a ?b ?c ?d] =>
              pose proof (caught_effect a b c d) as Hc;
              destruct (caught a b c d) as [c' st'];
              destruct Hc as (Hthis & Hls & Hf & Hs & Hgo & _);
              rewrite Hf, Hs, Hthis, Hls; repeat split; auto
          end.
      * rewrite (attempt_5xx_retry _ _ _ _ _ _ Hnet H5 Hmore). simpl.
        repeat split; auto. lia.
  - rewrite (attempt_rejected _ _ _ _ _ _ Hnet).
    pose proof (caught_effect retries attempt e
                  (with_fetch st (url, options))) as Hc.
    destruct (caught _ _ _ _) as [c st'].
    destruct Hc as (Hthis & Hls & Hf & Hs & Hgo & _).
    rewrite Hf, Hs, Hthis, Hls. repeat split; auto.
Qed.

(** *** The loop *)

Lemma for_attempts_step {L} url options retries remaining attempt st :
  for_attempts (L := L) url options retries (S remaining) attempt st =
    match attempt_body url options retries attempt st with
    | (Normal _, st') | (Continue _, st') =>
        for_attempts url options retries remaining (S attempt) st'
    | (Return r, st') => (Return r, st')
    | (Throw e, st') => (Throw e, st')
    end.
Proof. reflexivity. Qed.

(** The logs written by the loop: [n] fetches of the same call, and the
    delays [backoff attempt], [backoff (attempt + 1)], ... between them. *)
Lemma for_attempts_logs {L} url options retries remaining :
  forall attempt st,
    let '(c, st') :=
      for_attempts (L := L) url options retries remaining attempt st in
    exists n : nat,
      (n <= remaining)%nat /\
      fetch_log st' = fetch_log st ++ repeat (url, options) n /\
      sleep_log st' =
        sleep_log st ++
        map backoff (seq attempt (if goes_on c then n else (n - 1)%nat)) /\
      (if goes_on c then n = remaining else (1 <= n)%nat).
Proof.
  induction remaining as [| remaining IH]; intros attempt st.
  - simpl. exists 0%nat. simpl. rewrite !app_nil_r. auto.
  - rewrite for_attempts_step.
    pose proof (attempt_effect url options retries attempt st) as Hb.
    destruct (attempt_body url options retries attempt st) as [c st1].
    destruct Hb as (Hf & Hs & _ & _).
    destruct c as [[] | [] | r | e]; simpl in Hs.
    1, 2:
      specialize (IH (S attempt) st1);
      destruct (for_attempts url options retries remaining (S attempt) st1)
        as [c' st'];
      destruct IH as (n & Hn & Hf' & Hs' & Hend);
      exists (S n); rewrite Hf', Hs', Hf, Hs, <- !app_assoc;
      split; [lia|]; split; [reflexivity|];
      destruct (goes_on c'); (split; [|lia]);
      [ reflexivity
      | destruct n as [| n]; [lia|];
        simpl; rewrite Nat.sub_0_r; reflexivity ].
    1, 2:
      exists 1%nat; simpl; rewrite Hf, Hs;
      (split; [lia|]); repeat split; lia.
Qed.

(** The loop entered by [request] never runs to its end: the iteration
    of index [retries] returns or throws. *)
Lemma for_attempts_exits {L} url options retries remaining :
  forall attempt st,
    (attempt + remaining = S retries)%nat ->
    (1 <= remaining)%nat ->
    goes_on
      (for_attempts (L := L) url options retries remaining attempt st).1
    = false.
Proof.
  induction remaining as [| remaining IH]; intros attempt st Hsum Hpos;
    [lia|].
  rewrite for_attempts_step.
  pose proof (attempt_effect url options retries attempt st) as Hb.
  destruct (attempt_body url options retries attempt st) as [c st1].
  destruct Hb as (_ & _ & Hgo & _).
  destruct c as [[] | [] | r | e]; simpl in *; try reflexivity;
    specialize (Hgo eq_refl); apply IH; lia.
Qed.

(** A transient failure with attempts left is followed by its backoff
    delay and by the next iteration. *)
Lemma attempt_retried {L} url options retries remaining attempt st :
  retryable (net (List.length (fetch_log st))) = true ->
  (attempt < retries)%nat ->
  for_attempts (L := L) url options retries (S remaining) attempt st =
    for_attempts url options retries remaining (S attempt)
      (with_sleep (with_fetch st (url, options)) (backoff attempt)).
Proof.
  intros Hre Hlt. rewrite for_attempts_step.
  destruct (net (List.length (fetch_log st))) as [r | e] eqn:Hnet;
    simpl in Hre.
  - rewrite (attempt_5xx_retry _ _ _ _ _ _ Hnet) by lia. reflexivity.
  - rewrite (attempt_rejected _ _ _ _ _ _ Hnet). unfold caught.
    assert ((attempt =? retries)%nat = false) as ->
      by (apply Nat.eqb_neq; lia).
    reflexivity.
Qed.

Lemma after_retries_0 st call attempt : after_retries st call attempt 0 = st.
Proof.
  destruct st. unfold after_retries. simpl. rewrite !app_nil_r.
  reflexivity.
Qed.

Lemma after_retries_S st call attempt k :
  after_retries (with_sleep (with_fetch st call) (backoff attempt)) call
    (S attempt) k =
  after_retries st call attempt (S k).
Proof.
  unfold after_retries. simpl. rewrite <- !app_assoc. reflexivity.
Qed.

(** [k] consecutive transient failures within the budget take the loop
    from [attempt] to [attempt + k]. *)
Lemma retry_prefix {L} url options retries k :
  forall remaining attempt st,
    (forall i, (i < k)%nat ->
       retryable (net (List.length (fetch_log st) + i)) = true) ->
    (attempt + k <= retries)%nat ->
    for_attempts (L := L) url options retries (k + remaining) attempt st =
      for_attempts url options retries remaining (attempt + k)
        (after_retries st (url, options) attempt k).
Proof.
  induction k as [| k IH]; intros remaining attempt st Hre Hle.
  - rewrite after_retries_0, Nat.add_0_r. reflexivity.
  - change (S k + remaining)%nat with (S (k + remaining)).
    rewrite attempt_retried;
      [| specialize (Hre 0%nat); rewrite Nat.add_0_r in Hre; apply Hre; lia
       | lia ].
    rewrite IH; [| | lia].
    + rewrite after_retries_S. f_equal. lia.
    + intros i Hi. simpl. rewrite length_app. simpl.
      replace (List.length (fetch_log st) + 1 + i)%nat
        with (List.length (fetch_log st) + S i)%nat by lia.
      apply Hre. lia.
Qed.

(** *** From the loop to [request] *)

Lemma request_unfold method query body retries st :
  request method query body retries st =
    match
      for_attempts (L := Empty_set) (buildUrl (this st) query)
        (request_options (this st) method body) retries (S retries) 0 st
    with
    | (Normal _, st') => (Reject RetriesExhausted, st')
    | (Continue l, _) => match l with end
    | (Return r, st') => (Resolve r, st')
    | (Throw e, st') => (Reject e, st')
    end.
Proof.
  unfold request, async, bind, throw.
  destruct (for_attempts _ _ _ _ _ _) as [[[] | [] | r | e] st'];
    reflexivity.
Qed.

Lemma request_state method query body retries st :
  (request method query body retries st).2 =
  (for_attempts (L := Empty_set) (buildUrl (this st) query)
     (request_options (this st) method body) retries (S retries) 0 st).2.
Proof.
  rewrite request_unfold.
  destruct (for_attempts _ _ _ _ _ _) as [[[] | [] | r | e] st'];
    reflexivity.
Qed.

(** The logs of one call of [request]: between one and [retries + 1]
    fetches, all of the URL and options built before the loop, separated
    by the delays [backoff 0], [backoff 1], ... *)
Lemma request_logs method query body retries st :
  exists n : nat,
    (1 <= n <= S retries)%nat /\
    fetch_log (request method query body retries st).2 =
      fetch_log st ++
      repeat (buildUrl (this st) query,
              request_options (this st) method body) n /\
    sleep_log (request method query body retries st).2 =
      sleep_log st ++ map backoff (seq 0 (n - 1)).
Proof.
  rewrite request_state.
  pose proof (for_attempts_logs (L := Empty_set) (buildUrl (this st) query)
                (request_options (this st) method body) retries (S retries)
                0%nat st) as Hlogs.
  pose proof (for_attempts_exits (L := Empty_set)
                (buildUrl (this st) query)
                (request_options (this st) method body) retries (S retries)
                0%nat st eq_refl) as Hexit.
  destruct (for_attempts _ _ _ _ _ _) as [c st'].
  destruct Hlogs as (n & Hn & Hf & Hs & Hend).
  simpl in Hexit. rewrite Hexit in Hs, Hend by lia.
  exists n. simpl. repeat split; auto; lia.
Qed.

(** *** Session *)

Lemma session_empty_ext st st' :
  this st' = this st -> localStorage st' = localStorage st ->
  session_empty st -> session_empty st'.
Proof. unfold session_empty. intros -> ->. auto. Qed.

(** Nothing in the loop sets a session, and a 401 on any of its fetches
    clears it. *)
Lemma for_attempts_session {L} url options retries remaining :
  forall attempt st,
    let st' :=
      (for_attempts (L := L) url options retries remaining attempt st).2 in
    (session_empty st -> session_empty st') /\
    (forall k,
       (k < attempts_made st st')%nat ->
       unauthorized (net (List.length (fetch_log st) + k)) = true ->
       session_empty st').
Proof.
  induction remaining as [| remaining IH]; intros attempt st.
  - simpl. split; [auto|]. unfold attempts_made. intros k Hk. lia.
  - rewrite for_attempts_step.
    pose proof (attempt_effect url options retries attempt st) as Hb.
    destruct (attempt_body url options retries attempt st) as [c st1].
    destruct Hb as (Hf & _ & _ & Hsess).
    assert (session_empty st -> session_empty st1) as Hkeep.
    { destruct (net (List.length (fetch_log st))) as [r | e];
        [destruct (status r =? 401)|]; auto;
        destruct Hsess; apply session_empty_ext; auto. }
    assert (unauthorized (net (List.length (fetch_log st))) = true ->
            session_empty st1) as Hclear.
    { destruct (net (List.length (fetch_log st))) as [r | e]; simpl;
        [destruct (status r =? 401)|]; auto; discriminate. }
    assert (List.length (fetch_log st1) = S (List.length (fetch_log st)))
      as Hlen by (rewrite Hf, length_app; simpl; lia).
    destruct c as [[] | [] | r | e]; simpl.
    1, 2:
      specialize (IH (S attempt) st1); simpl in IH;
      destruct IH as (IHkeep & IHclear);
      split; [auto|];
      intros k Hk H401; unfold attempts_made in *;
      destruct k as [| k];
      [ rewrite Nat.add_0_r in H401; auto
      | apply (IHclear k); [lia|];
        rewrite Hlen;
        replace (S (List.length (fetch_log st)) + k)%nat
          with (List.length (fetch_log st) + S k)%nat by lia;
        exact H401 ].
    1, 2:
      split; [auto|];
      intros k Hk H401; unfold attempts_made in Hk;
      assert (k = 0%nat) as -> by lia;
      rewrite Nat.add_0_r in H401; auto.
Qed.

(** Whenever some attempt of a call receives status 401, the session
    store is empty once the call has completed. *)
Lemma session_cleared_by_401 method query body retries st k :
  (k < attempts_made st (request method query body retries st).2)%nat ->
  unauthorized (net (List.length (fetch_log st) + k)) = true ->
  session_empty (request method query body retries st).2.
Proof.
  rewrite request_state.
  apply (for_attempts_session (L := Empty_set)).
Qed.

(** *** encodeURIComponent *)

Lemma percent_encode_safe c :
  forallb url_safe (list_ascii_of_string (percent_encode c)) = true.
Proof. destruct c as [[] [] [] [] [] [] [] []]; vm_compute; reflexivity. Qed.

Lemma list_ascii_of_string_app a b :
  list_ascii_of_string (a +:+ b) =
  list_ascii_of_string a ++ list_ascii_of_string b.
Proof. induction a as [| x a IH]; simpl; [|rewrite IH]; reflexivity. Qed.

(** The encoded operation consists of unreserved characters and percent
    escapes only: no [?], [&], [=], [#] or [/] survives, so the operation
    stays one query parameter. *)
Lemma encodeURIComponent_safe query :
  forallb url_safe (list_ascii_of_string (encodeURIComponent query)) = true.
Proof.
  induction query as [| c rest IH]; simpl; [reflexivity|].
  rewrite list_ascii_of_string_app, forallb_app, IH, andb_true_r.
  destruct (unreserved c) eqn:Hc.
  - simpl. unfold url_safe. rewrite Hc. reflexivity.
  - apply percent_encode_safe.
Qed.

(** An operation that awaits [request] and returns leaves the state
    that [request] left. *)
Lemma async_request_state {R} verb query payload retries
    (k : ApiResponse -> R) st :
  (async (response <- await (request verb query payload retries) ;;
          return_ (k response)) st).2 =
  (request verb query payload retries st).2.
Proof.
  unfold async, bind, await, return_.
  destruct (request verb query payload retries st) as [[env | e] st'];
    reflexivity.
Qed.

Lemma request_calls verb query payload retries st
    (P : string * RequestInit -> Prop) :
  P (buildUrl (this st) query, request_options (this st) verb payload) ->
  Forall P (calls_made st (request verb query payload retries st).2).
Proof.
  intros HP. destruct (request_logs verb query payload retries st)
    as (n & _ & Hf & _).
  unfold calls_made. rewrite Hf, drop_app_length.
  apply Forall_forall. intros call Hin.
  apply list_elem_of_In, repeat_spec in Hin. subst call. exact HP.
Qed.

Lemma backoff_fits_double attempt :
  (attempt <= 1014)%nat ->
  backoff attempt = 125 * 2 ^ (Z.of_nat attempt + 3) /\
  backoff attempt < 2 ^ 1024.
Proof.
  intros Hle. unfold backoff. rewrite Z.pow_add_r by lia.
  split; [lia|].
  assert (2 ^ Z.of_nat attempt <= 2 ^ 1014)
    by (apply Z.pow_le_mono_r; lia).
  assert (2 ^ 1024 = 2 ^ 1014 * 1024) as -> by reflexivity.
  assert (0 < 2 ^ 1014) by reflexivity.
  nia.
Qed.

(** *** Properties of [request] *)

(** C9.  Whatever the retry budget and whatever the network answers on
    each attempt, the [for] loop of [request] completes by [return] or by
    [throw]; it never runs to its end, so the statement
    [throw new Error('Maximum retries exceeded')] after it is never
    executed. *)
Theorem trailing_throw_unreachable method query body retries st :
  match
    for_attempts (L := Empty_set) (buildUrl (this st) query)
      (request_options (this st) method body) retries (S retries) 0 st
  with
  | (Return r, st') =>
      request method query body retries st = (Resolve r, st')
  | (Throw e, st') =>
      request method query body retries st = (Reject e, st')
  | (Normal _, _) | (Continue _, _) => False
  end.
Proof.
  pose proof (for_attempts_exits (L := Empty_set)
                (buildUrl (this st) query)
                (request_options (this st) method body) retries (S retries)
                0%nat st eq_refl) as Hexit.
  specialize (Hexit ltac:(lia)). rewrite request_unfold.
  destruct (for_attempts _ _ _ _ _ _) as [[[] | [] | r | e] st'];
    simpl in *; try reflexivity; discriminate.
Qed.

(** C4.  After [k] consecutive retryable failures (with [k] within the
    retry budget), the delay slept before the retry of index [k] is
    [1000 * 2^(k-1)] milliseconds, and it is at least the delay slept
    before the attempt of index [k-1]. *)
Theorem backoff_doubles method query body retries st k :
  (1 <= k <= retries)%nat ->
  (forall i, (i < k)%nat ->
     retryable (net (List.length (fetch_log st) + i)) = true) ->
  let st' := (request method query body retries st).2 in
  delay_before st st' k = Some (1000 * 2 ^ (Z.of_nat k - 1)) /\
  ((2 <= k)%nat ->
   exists d,
     delay_before st st' (k - 1) = Some d /\
     d <= 1000 * 2 ^ (Z.of_nat k - 1)).
Proof.
  intros Hk Hre st'.
  assert (delays_slept st st' !! (k - 1)%nat =
            Some (1000 * 2 ^ (Z.of_nat k - 1)) /\
          forall j, (j < k)%nat ->
            delays_slept st st' !! j = Some (backoff j)) as [Hlast Hall].
  { subst st'. rewrite request_state.
    replace (S retries) with (k + (S retries - k))%nat by lia.
    rewrite (retry_prefix (L := Empty_set)) by (auto; lia).
    pose proof (for_attempts_logs (L := Empty_set)
                  (buildUrl (this st) query)
                  (request_options (this st) method body) retries
                  (S retries - k) (0 + k)
                  (after_retries st
                     (buildUrl (this st) query,
                      request_options (this st) method body) 0 k))
      as Hlogs.
    destruct (for_attempts _ _ _ _ _ _) as [c st''].
    destruct Hlogs as (n & _ & _ & Hs & _). simpl in Hs |- *.
    unfold delays_slept. rewrite Hs, <- !app_assoc, drop_app_length.
    assert (forall j, (j < k)%nat ->
              (map backoff (seq 0 k) ++
               map backoff
                 (seq k (if goes_on c then n else (n - 1)%nat))) !! j
              = Some (backoff j)) as Hj.
    { intros j Hj. rewrite lookup_app_l by (rewrite length_map, length_seq; lia).
      rewrite list_lookup_fmap, lookup_seq_lt by lia. reflexivity. }
    split; [|exact Hj].
    rewrite Hj by lia. unfold backoff. f_equal.
    replace (Z.of_nat (k - 1)) with (Z.of_nat k - 1) by lia. lia. }
  split; [exact Hlast|].
  intros H2. exists (backoff (k - 1 - 1)). split.
  - unfold delay_before. apply Hall. lia.
  - unfold backoff.
    replace (Z.of_nat k - 1) with (Z.of_nat (k - 1 - 1) + 1) by lia.
    rewrite Z.pow_add_r by lia.
    assert (0 < 2 ^ Z.of_nat (k - 1 - 1)) by (apply Z.pow_pos_nonneg; lia).
    lia.
Qed.

(** C2, amended.  When every attempt fails with a retryable outcome,
    [request] makes exactly [retries + 1] transport attempts and then ends
    with the last attempt's own outcome, not with a distinct
    retries-exhausted error: a final rejected fetch is re-raised
    unchanged, and a final server-error response whose body fails to
    parse, or carries a [danger] envelope, raises that parse error, or
    the envelope's message. *)
Theorem retry_ceiling method query body retries st :
  (forall k, retryable (net k) = true) ->
  let run := request method query body retries st in
  attempts_made st run.2 = S retries /\
  match net (List.length (fetch_log st) + retries) with
  | Rejected e => run.1 = Reject e
  | Responded r =>
      match json r with
      | JsonReject e => run.1 = Reject e
      | JsonValue d =>
          if is_danger d then run.1 = Reject (Error (errorMsg d)) else True
      end
  end.
Proof.
  intros Hre run. subst run. rewrite request_unfold.
  replace (S retries) with (retries + 1)%nat by lia.
  rewrite (retry_prefix (L := Empty_set)) by (auto; lia).
  set (call := (buildUrl (this st) query,
                request_options (this st) method body)).
  set (st1 := after_retries st call 0 retries).
  assert (List.length (fetch_log st1) =
            (List.length (fetch_log st) + retries)%nat) as Hlen.
  { subst st1. simpl. rewrite length_app, repeat_length. reflexivity. }
  simpl (0 + retries)%nat. rewrite for_attempts_step.
  pose proof (Hre (List.length (fetch_log st) + retries)%nat) as Hlast.
  rewrite <- Hlen in *.
  assert (forall e,
            caught retries retries e (with_fetch st1 call) =
            (Throw e, with_fetch st1 call)) as Hcaught.
  { intros e. unfold caught. rewrite Nat.eqb_refl. reflexivity. }
  assert (attempts_made st (with_fetch st1 call) = S retries) as Hn.
  { unfold attempts_made. simpl. rewrite !length_app, repeat_length.
    simpl. lia. }
  destruct (net (List.length (fetch_log st1))) as [r | e] eqn:Hnet;
    simpl in Hlast.
  - apply Z.leb_le in Hlast.
    rewrite (attempt_parsed _ _ _ _ _ _ Hnet) by (lia || (right; lia)).
    destruct (json r) as [d | e]; [destruct (is_danger d)|];
      rewrite ?Hcaught; simpl; rewrite Nat.add_1_r;
      (split; [exact Hn | auto]).
  - rewrite (attempt_rejected _ _ _ _ _ _ Hnet), Hcaught. simpl.
    rewrite Nat.add_1_r. split; [exact Hn | reflexivity].
Qed.

(** C3, amended.  The headers are built once, before the first attempt,
    from the API key alone, and every attempt of the call is sent the
    same options: [Content-Type: application/json] is always present,
    [X-API-Key] is present exactly when the API key is a non-empty
    string, and there is no other header, whether or not a session is
    held. *)
Theorem headers_built_once method query body retries st :
  let h := request_headers (this st) in
  (exists n : nat,
     (1 <= n <= S retries)%nat /\
     fetch_log (request method query body retries st).2 =
       fetch_log st ++
       repeat (buildUrl (this st) query,
               request_options (this st) method body) n) /\
  headers (request_options (this st) method body) = h /\
  h !! "Content-Type" = Some "application/json" /\
  h !! "X-API-Key" =
    (if nonempty (apiKey (this st)) then Some (apiKey (this st))
     else None) /\
  (forall header : string,
     header <> "Content-Type" -> header <> "X-API-Key" ->
     h !! header = None).
Proof.
  intros h. split.
  { destruct (request_logs method query body retries st)
      as (n & Hn & Hf & _). eauto. }
  split; [reflexivity|]. subst h. unfold request_headers.
  destruct (nonempty (apiKey (this st))).
  - split; [reflexivity|]. split; [apply lookup_insert_eq|].
    intros header H1 H2. rewrite lookup_insert_ne by congruence.
    apply lookup_singleton_ne. congruence.
  - split; [reflexivity|]. split; [reflexivity|].
    intros header H1 H2. apply lookup_singleton_ne. congruence.
Qed.

(** C8.  Every attempt of a call goes to the base address followed by
    [?query=] and the URL-encoded operation, in which only unreserved
    characters and percent escapes occur, with the verb given to
    [request]; a body is attached exactly when the payload is truthy and
    the verb is POST or PUT, and it is the serialized payload. *)
Theorem url_and_verb verb query payload retries st :
  let options := request_options (this st) verb payload in
  (exists n : nat,
     (1 <= n <= S retries)%nat /\
     fetch_log (request verb query payload retries st).2 =
       fetch_log st ++
       repeat (baseUrl (this st) +:+ "?query=" +:+ encodeURIComponent query,
               options) n) /\
  method options = verb /\
  body options =
    (if truthy payload && sends_body verb
     then Some (JSON_stringify payload) else None) /\
  (match verb with
   | GET | DELETE => body options = None
   | POST | PUT => True
   end) /\
  forallb url_safe (list_ascii_of_string (encodeURIComponent query)) = true /\
  (forall mailbox data fields,
     Forall (fun call => method call.2 = GET /\ body call.2 = None)
       (calls_made st (getMailbox mailbox st).2) /\
     Forall (fun call => method call.2 = POST)
       (calls_made st (createMailbox data st).2) /\
     Forall (fun call => method call.2 = PUT)
       (calls_made st (updateMailbox mailbox fields st).2) /\
     Forall (fun call => method call.2 = DELETE /\ body call.2 = None)
       (calls_made st (deleteMailbox mailbox st).2)).
Proof.
  intros options. split.
  { destruct (request_logs verb query payload retries st)
      as (n & Hn & Hf & _). eauto. }
  split; [reflexivity|]. split; [reflexivity|]. split.
  { subst options. simpl. destruct verb; auto;
      rewrite andb_false_r; reflexivity. }
  split; [apply encodeURIComponent_safe|].
  intros mailbox data fields. unfold getMailbox, createMailbox.
  unfold updateMailbox, deleteMailbox. rewrite !async_request_state.
  repeat split; apply request_calls; simpl; auto.
Qed.

(** *** Operations *)

Lemma success_returns {L} url options retries remaining attempt st resp env :
  net (List.length (fetch_log st)) = Responded resp ->
  ok resp = true ->
  json resp = JsonValue env ->
  is_danger env = false ->
  for_attempts (L := L) url options retries (S remaining) attempt st =
    (Return env, with_fetch st (url, options)).
Proof.
  intros Hnet Hok Hjson Hkind. rewrite for_attempts_step.
  unfold ok in Hok. apply andb_true_iff in Hok as [Hlo Hhi].
  rewrite (attempt_parsed _ _ _ _ _ _ Hnet) by (lia || (left; lia)).
  rewrite Hjson, Hkind. reflexivity.
Qed.

(** C6.  When the response is 2xx and its envelope is of type success,
    warning or info, the attempt that receives it makes [request] return
    that envelope unchanged, at whatever point of the loop; an operation
    such as [getMailbox] then hands the caller the envelope's [data] as
    it is.  Without a [data] field nothing is raised: [getMailbox]
    resolves to the absent value, and [getMailboxes] to the empty
    array. *)
Theorem envelope_pass_through verb query payload retries mailbox st resp env :
  net (List.length (fetch_log st)) = Responded resp ->
  ok resp = true ->
  json resp = JsonValue env ->
  type env = success \/ type env = warning \/ type env = info ->
  (forall url options budget remaining attempt,
     for_attempts (L := Empty_set) url options budget (S remaining)
       attempt st =
     (Return env, with_fetch st (url, options))) /\
  (request verb query payload retries st).1 = Resolve env /\
  attempts_made st (request verb query payload retries st).2 = 1%nat /\
  (getMailbox mailbox st).1 = Resolve (data_of env) /\
  (forall d, data env = Some d -> (getMailbox mailbox st).1 = Resolve d) /\
  (data env = None ->
   (getMailbox mailbox st).1 = Resolve JUndefined /\
   (getMailboxes st).1 = Resolve (JArray [])).
Proof.
  intros Hnet Hok Hjson Hkind.
  assert (is_danger env = false) as Hd
    by (unfold is_danger; destruct Hkind as [-> | [-> | ->]]; reflexivity).
  assert (forall verb' query' payload' budget,
            request verb' query' payload' budget st =
            (Resolve env,
             with_fetch st (buildUrl (this st) query',
                            request_options (this st) verb' payload')))
    as Hreq.
  { intros. rewrite request_unfold.
    rewrite (success_returns _ _ _ _ _ _ _ _ Hnet Hok Hjson Hd).
    reflexivity. }
  split.
  { intros. apply (success_returns _ _ _ _ _ _ _ _ Hnet Hok Hjson Hd). }
  rewrite Hreq. split; [reflexivity|]. split.
  { unfold attempts_made. simpl. rewrite length_app. simpl. lia. }
  assert ((getMailbox mailbox st).1 = Resolve (data_of env)) as Hget.
  { unfold getMailbox, async, bind, await, return_. rewrite Hreq.
    reflexivity. }
  split; [exact Hget|]. split.
  { intros d Hdata. rewrite Hget. unfold data_of. rewrite Hdata.
    reflexivity. }
  intros Hnone. split.
  - rewrite Hget. unfold data_of. rewrite Hnone. reflexivity.
  - unfold getMailboxes, async, bind, await, return_. rewrite Hreq.
    unfold data_of. rewrite Hnone. reflexivity.
Qed.

(** C10.  [getAuthStatus] and [getAnalysis] never raise: whatever error
    the underlying [request] rejects with, they resolve to [null], and
    when it resolves they resolve to the envelope's [data], or to [null]
    when there is none. *)
Theorem status_getters_never_raise emailId mailbox st :
  (exists v st', getAuthStatus st = (Resolve v, st')) /\
  (exists v st', getAnalysis emailId mailbox st = (Resolve v, st')) /\
  match request GET "get/user/auth" JUndefined default_retries st with
  | (Reject _, st') => getAuthStatus st = (Resolve JNull, st')
  | (Resolve env, st') =>
      getAuthStatus st = (Resolve (js_or (data_of env) JNull), st') /\
      (data env = None -> getAuthStatus st = (Resolve JNull, st'))
  end /\
  match
    request GET
      ("get/llm/analysis?email_id=" +:+ emailId +:+ "&mailbox=" +:+ mailbox)
      JUndefined default_retries st
  with
  | (Reject _, st') => getAnalysis emailId mailbox st = (Resolve JNull, st')
  | (Resolve env, st') =>
      getAnalysis emailId mailbox st =
        (Resolve (js_or (data_of env) JNull), st') /\
      (data env = None ->
       getAnalysis emailId mailbox st = (Resolve JNull, st'))
  end.
Proof.
  unfold getAuthStatus, getAnalysis, async, try_catch, bind, await, return_.
  destruct (request GET "get/user/auth" JUndefined default_retries st)
    as [[env | e] st1];
  destruct (request GET _ JUndefined default_retries st)
    as [[env' | e'] st2];
  repeat split; eauto;
    intros Hnone; unfold data_of; rewrite Hnone; reflexivity.
Qed.

(** On the attempt of index [retries] nothing is retried any more: a
    401, a 403 and a [danger] envelope raise their own error there, the
    last with the envelope's message (the string itself, or the list
    joined by a comma and a space). *)
Lemma last_attempt_raises {L} url options retries remaining st resp :
  net (List.length (fetch_log st)) = Responded resp ->
  let run :=
    for_attempts (L := L) url options retries (S remaining) retries st in
  (status resp = 401 ->
   run.1 = Throw (Error "Unauthorized - please login again")) /\
  (status resp = 403 ->
   run.1 = Throw (Error "Forbidden - insufficient permissions")) /\
  (forall env,
     ok resp = true -> json resp = JsonValue env -> is_danger env = true ->
     run.1 = Throw (Error (errorMsg env))).
Proof.
  intros Hnet run. subst run. rewrite for_attempts_step.
  split; [|split].
  - intros H401. rewrite (attempt_401 _ _ _ _ _ _ Hnet H401).
    unfold caught. rewrite Nat.eqb_refl. reflexivity.
  - intros H403. rewrite (attempt_403 _ _ _ _ _ _ Hnet H403).
    unfold caught. rewrite Nat.eqb_refl. reflexivity.
  - intros env Hok Hjson Hkind.
    unfold ok in Hok. apply andb_true_iff in Hok as [Hlo Hhi].
    rewrite (attempt_parsed _ _ _ _ _ _ Hnet) by (lia || (left; lia)).
    rewrite Hjson, Hkind. unfold caught. rewrite Nat.eqb_refl.
    reflexivity.
Qed.

Lemma errorMsg_string type s log data :
  errorMsg {| type := type; msg := Msg s; log := log; data := data |} = s.
Proof. reflexivity. Qed.

Lemma errorMsg_list type l log data :
  errorMsg {| type := type; msg := Msgs l; log := log; data := data |} =
  String.concat ", " l.
Proof. reflexivity. Qed.

End Client.

(** ** The scenarios, run *)

(** Scenario A: three server errors, then a success, within the default
    budget. *)
Example scenario_A :
  let net k := if (k <? 3)%nat then answer 500 env_taken
               else answer 200 env_ok in
  let run := request net no_payload GET "get/mailbox/all" JUndefined
               default_retries logged_in in
  run.1 = Resolve env_ok /\
  attempts_made logged_in run.2 = 4%nat /\
  delays_slept logged_in run.2 = [1000; 2000; 4000].
Proof. vm_compute. repeat split. Qed.

(** C1.  With the default budget of three retries, a backend that answers
    401 to every attempt is called four times, with the backoff delays in
    between, before the error is raised; likewise for 403 and for a 2xx
    response with a [danger] envelope.  The errors thrown inside the [try]
    block are caught by its own [catch] clause and retried. *)
Theorem fatal_classes_are_retried :
  let call net :=
    request net no_payload GET "get/mailbox/all" JUndefined default_retries
      logged_in in
  ((call (always (answer 401 env_taken))).1 =
     Reject (Error "Unauthorized - please login again") /\
   attempts_made logged_in (call (always (answer 401 env_taken))).2 = 4%nat /\
   delays_slept logged_in (call (always (answer 401 env_taken))).2 =
     [1000; 2000; 4000]) /\
  ((call (always (answer 403 env_taken))).1 =
     Reject (Error "Forbidden - insufficient permissions") /\
   attempts_made logged_in (call (always (answer 403 env_taken))).2 = 4%nat) /\
  ((call (always (answer 200 env_taken))).1 =
     Reject (Error "username taken") /\
   attempts_made logged_in (call (always (answer 200 env_taken))).2 = 4%nat).
Proof. vm_compute. repeat split. Qed.

(** C5.  A 401 on the first attempt, followed by a success on the second:
    the session store is emptied, but the call does not raise; it sleeps
    one second, tries again and resolves with the second response. *)
Theorem unauthorized_is_retried :
  let run :=
    request (first_then (answer 401 env_taken) (answer 200 env_ok)) no_payload
      GET "get/mailbox/all" JUndefined default_retries logged_in in
  sessionId (this logged_in) = Some "abc123" /\
  run.1 = Resolve env_ok /\
  attempts_made logged_in run.2 = 2%nat /\
  delays_slept logged_in run.2 = [1000] /\
  sessionId (this run.2) = None /\
  localStorage run.2 = Some ∅.
Proof. vm_compute. repeat split. Qed.

(** C7.  A 2xx response with a [danger] envelope on the first attempt,
    followed by a success: no error carrying the envelope's message is
    raised, the call resolves with the later envelope; and when the later
    attempts cannot reach the backend, the error raised is the network's,
    not the envelope's. *)
Theorem application_error_is_retried :
  let call net :=
    request net no_payload POST "add/mailbox" JUndefined default_retries
      logged_in in
  (call (first_then (answer 200 env_taken) (answer 200 env_ok))).1 =
    Resolve env_ok /\
  (call (first_then (answer 200 env_invalid) (Rejected fetch_failed))).1 =
    Reject fetch_failed /\
  errorMsg env_taken = "username taken" /\
  errorMsg env_invalid = "name missing, quota too large".
Proof. vm_compute. repeat split. Qed.

(** C2 as stated fails: with the backend unreachable on all four
    attempts, the call rejects with the error of the last fetch, not
    with the error constructed after the loop. *)
Lemma retries_exhausted_counterexample :
  let run :=
    request (always (Rejected fetch_failed)) no_payload GET "get/mailbox/all"
      JUndefined default_retries logged_in in
  attempts_made logged_in run.2 = 4%nat /\
  run.1 = Reject fetch_failed /\
  run.1 <> Reject RetriesExhausted.
Proof. vm_compute. repeat split. discriminate. Qed.

(** C3 as stated fails: a session is held before and after the call,
    and the one attempt made carries it in no header. *)
Lemma session_header_counterexample :
  let run :=
    request (always (answer 200 env_ok)) no_payload GET "get/mailbox/all"
      JUndefined default_retries logged_in in
  sessionId (this logged_in) = Some "abc123" /\
  sessionId (this run.2) = Some "abc123" /\
  map (fun call => carries_token (headers call.2) "abc123")
    (fetch_log run.2) = [false].
Proof. vm_compute. repeat split. Qed.

(** ** Instances of the conditional theorems *)

Lemma backoff_doubles_witness :
  let st' :=
    (request (always (Rejected fetch_failed)) no_payload GET "get/mailbox/all"
       JUndefined 3 logged_in).2 in
  delay_before logged_in st' 3 = Some (1000 * 2 ^ (Z.of_nat 3 - 1)) /\
  ((2 <= 3)%nat ->
   exists d,
     delay_before logged_in st' (3 - 1) = Some d /\
     d <= 1000 * 2 ^ (Z.of_nat 3 - 1)).
Proof.
  apply (backoff_doubles (always (Rejected fetch_failed)) no_payload GET
           "get/mailbox/all" JUndefined 3 logged_in 3).
  - lia.
  - intros i Hi. reflexivity.
Defined.

Lemma retry_ceiling_witness :
  let run :=
    request (always (Rejected fetch_failed)) no_payload GET "get/mailbox/all"
      JUndefined 3 logged_in in
  attempts_made logged_in run.2 = 4%nat /\ run.1 = Reject fetch_failed.
Proof.
  apply (retry_ceiling (always (Rejected fetch_failed)) no_payload GET
           "get/mailbox/all" JUndefined 3 logged_in).
  intros k. reflexivity.
Defined.

Lemma envelope_pass_through_witness :
  (request (always (answer 200 env_ok)) no_payload GET "get/mailbox/all"
     JUndefined 3 logged_in).1 = Resolve env_ok /\
  (getMailbox (always (answer 200 env_ok)) no_payload "info@example.org"
     logged_in).1 = Resolve (JObject [("a", JNumber 1)]).
Proof.
  pose proof (envelope_pass_through (always (answer 200 env_ok)) no_payload
                GET "get/mailbox/all" JUndefined 3 "info@example.org"
                logged_in
                {| status := 200; json := JsonValue env_ok |} env_ok
                eq_refl eq_refl eq_refl (or_introl eq_refl))
    as (_ & Hreq & _ & Hget & _).
  split; [exact Hreq | exact Hget].
Defined.
